(** * CORINT decision engine: the C FFI boundary of corint.h

    corint.h declares the foreign surface of the engine: an opaque handle
    [CorintEngine], two factories, the evaluator, two release operations,
    the logging bootstrap and the version accessor.  The library that
    implements the header is not part of src/; the boundary layer below is
    modelled from the specification of that surface.  The engine core (the
    repository loaders, the JSON library, the request schema, the
    evaluator) is an external collaborator and enters as section
    variables.

    Memory is split by allocator: [foreign] is the caller's memory (the
    zero-terminated strings it passes in), [native] is the boundary's own
    allocator (engines, returned strings, scratch buffers).  Pointers are
    abstract values in [N], the null sentinel is [0]; the boundary does no
    pointer arithmetic.  Every pointer the caller can form into its own
    memory (to the start of a buffer or into it) is a key of [foreign],
    mapped to the bytes readable from that address on. *)

From Stdlib Require Import Strings.Byte NArith.
From stdpp Require Import base gmap sets list.

Local Open Scope N_scope.

(** ** Bytes, C strings and UTF-8 *)

(** Byte ranges of well-formed UTF-8 (Unicode, table 3-7). *)
Definition in_range (lo hi : N) (b : byte) : bool :=
  (lo <=? Byte.to_N b) && (Byte.to_N b <=? hi).

Definition cont (b : byte) : bool := in_range 0x80 0xBF b.

Fixpoint utf8_valid (bs : list byte) : bool :=
  match bs with
  | [] => true
  | b1 :: r1 =>
    if in_range 0x00 0x7F b1 then utf8_valid r1 else
    match r1 with
    | [] => false
    | b2 :: r2 =>
      if in_range 0xC2 0xDF b1 then cont b2 && utf8_valid r2 else
      match r2 with
      | [] => false
      | b3 :: r3 =>
        if in_range 0xE0 0xE0 b1 then in_range 0xA0 0xBF b2 && cont b3 && utf8_valid r3
        else if in_range 0xE1 0xEC b1 then cont b2 && cont b3 && utf8_valid r3
        else if in_range 0xED 0xED b1 then in_range 0x80 0x9F b2 && cont b3 && utf8_valid r3
        else if in_range 0xEE 0xEF b1 then cont b2 && cont b3 && utf8_valid r3
        else
        match r3 with
        | [] => false
        | b4 :: r4 =>
          if in_range 0xF0 0xF0 b1 then in_range 0x90 0xBF b2 && cont b3 && cont b4 && utf8_valid r4
          else if in_range 0xF1 0xF3 b1 then cont b2 && cont b3 && cont b4 && utf8_valid r4
          else if in_range 0xF4 0xF4 b1 then in_range 0x80 0x8F b2 && cont b3 && cont b4 && utf8_valid r4
          else false
        end
      end
    end
  end.

(** No interior zero byte (the check of Rust's [CString::new]). *)
Definition no_nul (bs : list byte) : bool := forallb (fun b => negb (Byte.eqb b x00)) bs.

(** Reading a zero-terminated string out of a buffer: the bytes before the
    first zero; a buffer without a terminator is not a C string. *)
Fixpoint take_cstr (buf : list byte) : option (list byte) :=
  match buf with
  | [] => None
  | b :: r => if Byte.eqb b x00 then Some [] else cons b <$> take_cstr r
  end.

(** ** Logging singleton *)

Inductive log_level := LevelError | LevelWarn | LevelInfo | LevelDebug | LevelTrace.

(** The sink attached by the first initialisation (env_logger's default). *)
Definition default_level : log_level := LevelInfo.

(** ** Engine core collaborators and error kinds *)

(** Failure kinds of the repository loaders (filesystem and database). *)
Inductive load_err :=
  | PathNotFound | PathNotReadable | RepoInvalid
  | HostUnreachable | AuthRefused | SchemaMismatch | PoolInitFailed
  | ResourceExhausted.

(** Result of running engine code that may fail or panic (unwind). *)
Inductive outcome (A : Type) := Done (a : A) | Failed | Panicked.
Arguments Done {A} a.
Arguments Failed {A}.
Arguments Panicked {A}.

(** [std::panic::catch_unwind] at the boundary: a panic becomes a value. *)
Definition catch_unwind {A} (o : outcome A) : option A :=
  match o with Done a => Some a | Failed => None | Panicked => None end.

(** Build version (semantic version of the crate). *)
Record semver := { major : N; minor : N; patch : N }.

(** Decimal rendering of a number as ASCII digits. *)
Definition digit_byte (d : N) : byte :=
  match Byte.of_N (48 + d) with Some b => b | None => "0"%byte end.

Fixpoint dec_digits (fuel : nat) (n : N) (acc : list byte) : list byte :=
  match fuel with
  | O => acc
  | S f =>
    let acc' := digit_byte (n mod 10) :: acc in
    if n / 10 =? 0 then acc' else dec_digits f (n / 10) acc'
  end.

Definition dec (n : N) : list byte := dec_digits (S (N.to_nat (N.log2 n))) n [].

Definition version_bytes (v : semver) : list byte :=
  dec (major v) ++ ["."%byte] ++ dec (minor v) ++ ["."%byte] ++ dec (patch v).

Section Boundary.

Context {Engine Json : Type}.

(** The filesystem and the database repository loaders. *)
Variable load_fs : list byte -> Engine + load_err.
Variable load_db : list byte -> Engine + load_err.
(** The JSON library: parsing a request, rendering a response ([None] when
    memory runs out while the response is built). *)
Variable parse_json : list byte -> option Json.
Variable render_json : Json -> option (list byte).
(** The engine's request schema and its evaluator. *)
Variable schema_ok : Engine -> Json -> bool.
Variable evaluate : Engine -> Json -> outcome Json.
(** The version of this build. *)
Variable build_version : semver.

(** Blocks of the native allocator. *)
Inductive data :=
  | DStr (buf : list byte)                (** a string handed out, with its terminator *)
  | DEngine (e : Engine) (src : list byte) (** an engine and its owned copy of its source *)
  | DScratch (buf : list byte).           (** a temporary buffer of a call in progress *)

Record state := {
  foreign : gmap N (list byte);
  native : gmap N data;
  logger : option log_level
}.

Definition set_native (m : gmap N data) (st : state) : state :=
  {| foreign := foreign st; native := m; logger := logger st |}.

Definition set_foreign (m : gmap N (list byte)) (st : state) : state :=
  {| foreign := m; native := native st; logger := logger st |}.

Definition set_logger (l : option log_level) (st : state) : state :=
  {| foreign := foreign st; native := native st; logger := l |}.

(** [CStr::from_ptr]: the zero-terminated string at [p], in the caller's
    memory or in a string the boundary handed out (owned by the caller
    since); null, unmapped or unterminated pointers, and pointers to
    engines or scratch buffers, give [None]. *)
Definition cstr_read (st : state) (p : N) : option (list byte) :=
  if p =? 0 then None else
  match foreign st !! p with
  | Some buf => take_cstr buf
  | None => match native st !! p with Some (DStr buf) => take_cstr buf | _ => None end
  end.

(** The native allocator: a fresh non-null address, never one in use. *)
Definition fresh_addr (st : state) : N :=
  fresh (dom (native st) ∪ dom (foreign st) ∪ {[0]}).

Definition alloc (st : state) (d : data) : N * state :=
  let p := fresh_addr st in (p, set_native (<[p := d]> (native st)) st).

Definition release (st : state) (p : N) : state :=
  set_native (delete p (native st)) st.

(** Modelled from the spec: corint_init_logging (missing from src/).  The
    first call attaches the diagnostic sink; later calls find it attached
    and do nothing. *)
Definition corint_init_logging (st : state) : state :=
  match logger st with
  | Some _ => st
  | None => set_logger (Some default_level) st
  end.

(** Modelled from the spec: corint_engine_new and
    corint_engine_new_from_database (missing from src/).  Both factories read the caller's string, check it is UTF-8, copy it
    into an owned scratch buffer, run the loader on the copy and release
    the scratch buffer; on success the engine is registered, owning its
    own copy of the source string. *)
Definition engine_new_with (load : list byte -> Engine + load_err)
    (st : state) (p : N) : N * state :=
  match cstr_read st p with
  | None => (0, st)
  | Some src =>
    if utf8_valid src then
      let '(tmp, st1) := alloc st (DScratch src) in
      match load src with
      | inl e => alloc (release st1 tmp) (DEngine e src)
      | inr _ => (0, release st1 tmp)
      end
    else (0, st)
  end.

Definition corint_engine_new (st : state) (repository_path : N) : N * state :=
  engine_new_with load_fs st repository_path.

Definition corint_engine_new_from_database (st : state) (database_url : N) : N * state :=
  engine_new_with load_db st database_url.

(** Modelled from the spec: corint_engine_decide (missing from src/).
    The handle is looked up in the native allocator (null, released or
    foreign handles give no engine); the request is read as a C string,
    checked to be UTF-8, parsed as JSON and checked against the engine's
    schema; the evaluator runs under [catch_unwind]; the response is
    rendered, checked for UTF-8 and interior zero bytes ([CString::new]),
    and copied, zero-terminated, into a fresh native string.  Every failure
    yields the null sentinel and leaves the state untouched. *)
Definition decide_response (st : state) (engine request_json : N) : option (list byte) :=
  e ← (if engine =? 0 then None else
       match native st !! engine with Some (DEngine e _) => Some e | _ => None end);
  req ← cstr_read st request_json;
  (if utf8_valid req then Some tt else None) ≫= fun _ =>
  j ← parse_json req;
  (if schema_ok e j then Some tt else None) ≫= fun _ =>
  resp ← catch_unwind (evaluate e j);
  bs ← render_json resp;
  if utf8_valid bs && no_nul bs then Some bs else None.

Definition corint_engine_decide (st : state) (engine request_json : N) : N * state :=
  match decide_response st engine request_json with
  | None => (0, st)
  | Some bs => alloc st (DStr (bs ++ [x00]))
  end.

(** Modelled from the spec: corint_engine_free (missing from src/).  Null is
    a no-op; an engine handle is removed from the handle table together with
    everything the engine owns; anything else is not an engine and is left
    alone. *)
Definition corint_engine_free (st : state) (engine : N) : state :=
  if engine =? 0 then st else
  match native st !! engine with
  | Some (DEngine _ _) => release st engine
  | _ => st
  end.

(** Modelled from the spec: corint_string_free (missing from src/).  Null
    is a no-op; a string of the native allocator is returned to it.  A
    pointer the boundary did not hand out, or one already released, is
    undefined at the contract level: [None]. *)
Definition corint_string_free (st : state) (s : N) : option state :=
  if s =? 0 then Some st else
  match native st !! s with
  | Some (DStr _) => Some (release st s)
  | _ => None
  end.

(** Modelled from the spec: corint_version (missing from src/).  The
    version of the build, zero-terminated, in a fresh native string. *)
Definition corint_version (st : state) : N * state :=
  alloc st (DStr (version_bytes build_version ++ [x00])).

(** Failure conditions of a factory call with loader [load]. *)
Inductive new_failure (load : list byte -> Engine + load_err) (st : state) (p : N) : Prop :=
  | NullPath : p = 0 -> new_failure load st p
  | InvalidPath : foreign st !! p = None ->
      (forall buf, native st !! p <> Some (DStr buf)) -> new_failure load st p
  | UnterminatedPath buf : foreign st !! p = Some buf -> take_cstr buf = None ->
      new_failure load st p
  | PathNotUtf8 src : cstr_read st p = Some src -> utf8_valid src = false ->
      new_failure load st p
  | LoadFailed src err : cstr_read st p = Some src -> load src = inr err ->
      new_failure load st p.

(** Failure conditions of an evaluator call. *)
Inductive decide_failure (st : state) (h r : N) : Prop :=
  | NullHandle : h = 0 -> decide_failure st h r
  | NotAnEngine : (forall e src, native st !! h <> Some (DEngine e src)) -> decide_failure st h r
  | NullRequest : r = 0 -> decide_failure st h r
  | InvalidRequest : foreign st !! r = None ->
      (forall buf, native st !! r <> Some (DStr buf)) -> decide_failure st h r
  | RequestNotUtf8 req : cstr_read st r = Some req -> utf8_valid req = false ->
      decide_failure st h r
  | RequestNotJson req : cstr_read st r = Some req -> parse_json req = None ->
      decide_failure st h r
  | RequestRejected e src req j : native st !! h = Some (DEngine e src) ->
      cstr_read st r = Some req -> parse_json req = Some j -> schema_ok e j = false ->
      decide_failure st h r
  | EvaluationFailed e src req j : native st !! h = Some (DEngine e src) ->
      cstr_read st r = Some req -> parse_json req = Some j -> evaluate e j = Failed ->
      decide_failure st h r
  | EvaluationPanicked e src req j : native st !! h = Some (DEngine e src) ->
      cstr_read st r = Some req -> parse_json req = Some j -> evaluate e j = Panicked ->
      decide_failure st h r
  | ResponseExhausted e src req j resp : native st !! h = Some (DEngine e src) ->
      cstr_read st r = Some req -> parse_json req = Some j -> evaluate e j = Done resp ->
      render_json resp = None -> decide_failure st h r.

(** The C string a boundary-owned pointer denotes. *)
Definition native_cstr (st : state) (p : N) : option (list byte) :=
  match native st !! p with Some (DStr buf) => take_cstr buf | _ => None end.

End Boundary.

(** ** A concrete instance of the collaborators

    A one-engine repository, a JSON library that knows the document [{}],
    and evaluators that succeed, fail or panic. *)

Definition ex_path : list byte := ["/"; "r"; "e"; "p"; "o"; x00]%byte.
Definition ex_request : list byte := ["{"; "}"; x00]%byte.

Definition ex_state0 : @state unit :=
  {| foreign := {[1 := ex_path; 2 := ex_request]}; native := ∅; logger := None |}.

Definition ex_load (src : list byte) : unit + load_err := inl tt.
Definition ex_load_missing (src : list byte) : unit + load_err := inr PathNotFound.

Definition ex_parse (bs : list byte) : option unit :=
  if List.list_eq_dec Byte.byte_eq_dec bs ["{"; "}"]%byte then Some tt else None.
Definition ex_render (j : unit) : option (list byte) := Some ["{"; "}"]%byte.
Definition ex_schema (e j : unit) : bool := true.
Definition ex_eval_ok (e j : unit) : outcome unit := Done tt.
Definition ex_eval_panic (e j : unit) : outcome unit := Panicked.

(** The engine built from the example repository. *)
Definition ex_engine : N * @state unit := corint_engine_new ex_load ex_state0 1.


Example utf8_ex1 : utf8_valid [x7b; x7d] = true. Proof. reflexivity. Qed.
Example utf8_ex2 : utf8_valid [xc3; xa9] = true. Proof. reflexivity. Qed.
Example utf8_ex3 : utf8_valid [xc0; xaf] = false. Proof. reflexivity. Qed.
Example utf8_ex4 : utf8_valid [xed; xa0; x80] = false. Proof. reflexivity. Qed.
Example dec_ex : version_bytes {| major := 0; minor := 12; patch := 305 |} = ["0";".";"1";"2";".";"3";"0";"5"]%byte. Proof. reflexivity. Qed.
Example fresh_ex : fresh_addr (Engine:=unit) {| foreign := {[1 := [x00]]}; native := ∅; logger := None |} = 2. Proof. vm_compute. reflexivity. Qed.

(** ** Allocator lemmas *)

Lemma fresh_addr_spec {Engine} (st : @state Engine) :
  fresh_addr st <> 0 /\ native st !! fresh_addr st = None /\ foreign st !! fresh_addr st = None.
Proof.
  unfold fresh_addr.
  pose proof (is_fresh (dom (native st) ∪ dom (foreign st) ∪ {[0]})) as Hf.
  split; [|split]; [set_solver| |]; apply not_elem_of_dom; set_solver.
Qed.

Lemma release_alloc {Engine} (st : @state Engine) d :
  release (snd (alloc st d)) (fst (alloc st d)) = st.
Proof.
  destruct (fresh_addr_spec st) as (_ & Hn & _).
  destruct st as [f n l]; unfold release, alloc, set_native; simpl in *.
  by rewrite delete_insert_id.
Qed.

Lemma alloc_foreign {Engine} (st : @state Engine) d : foreign (snd (alloc st d)) = foreign st.
Proof. reflexivity. Qed.

Lemma take_cstr_terminated bs : no_nul bs = true -> take_cstr (bs ++ [x00]) = Some bs.
Proof.
  induction bs as [|b bs IH]; [reflexivity|].
  simpl. intros H. apply andb_prop in H as [Hb Hbs].
  destruct (Byte.eqb b x00); [discriminate|]. by rewrite IH.
Qed.

Lemma cstr_read_invalid {Engine} (st : @state Engine) p :
  foreign st !! p = None -> (forall buf, native st !! p <> Some (DStr buf)) ->
  cstr_read st p = None.
Proof.
  intros Hf Hn. unfold cstr_read. rewrite Hf. case_match; [done|].
  destruct (native st !! p) as [[buf| |]|] eqn:E; try done. by destruct (Hn buf).
Qed.

Lemma engine_new_with_fail {Engine} (load : list byte -> Engine + load_err) st p :
  new_failure load st p -> engine_new_with load st p = (0, st).
Proof.
  unfold engine_new_with.
  destruct 1 as [Hp|Hp Hn|buf Hp Hb|src Hr Hu|src err Hr Hl].
  - subst. reflexivity.
  - by rewrite cstr_read_invalid.
  - unfold cstr_read. rewrite Hp. simpl. rewrite Hb. by destruct (p =? 0).
  - by rewrite Hr, Hu.
  - rewrite Hr. destruct (utf8_valid src); [|reflexivity].
    pose proof (release_alloc st (DScratch src)) as Hra.
    destruct (alloc st (DScratch src)) as [tmp st1]. rewrite Hl. simpl in Hra. by rewrite Hra.
Qed.

Lemma engine_new_with_shape {Engine} (load : list byte -> Engine + load_err) st p :
  let '(h, st') := engine_new_with load st p in
  (h = 0 /\ st' = st) \/
  (h <> 0 /\ exists e src, native st !! h = None /\
     native st' = <[h := DEngine e src]> (native st) /\ foreign st' = foreign st).
Proof.
  unfold engine_new_with.
  destruct (cstr_read st p) as [src|]; [|by left].
  destruct (utf8_valid src); [|by left].
  pose proof (release_alloc st (DScratch src)) as Hra.
  destruct (alloc st (DScratch src)) as [tmp st1] eqn:Ha. simpl in Hra. rewrite Hra.
  destruct (load src) as [e|err]; [|by left].
  right. destruct (fresh_addr_spec st) as (Hnz & Hn & _).
  unfold alloc. simpl. split; [done|]. exists e, src. done.
Qed.

Lemma alloc_str {Engine} (st : @state Engine) buf :
  let '(p, st') := alloc st (DStr buf) in
  p <> 0 /\ native st !! p = None /\ native st' !! p = Some (DStr buf) /\ release st' p = st.
Proof.
  pose proof (release_alloc st (DStr buf)) as Hr.
  destruct (fresh_addr_spec st) as (Hnz & Hn & _).
  unfold alloc in *. simpl in *. repeat split; try done. apply lookup_insert_eq.
Qed.

Lemma digit_byte_not_nul d : Byte.eqb (digit_byte d) x00 = false.
Proof.
  unfold digit_byte. destruct (Byte.of_N (48 + d)) as [b|] eqn:E; [|reflexivity].
  apply Byte.to_of_N in E. destruct (Byte.eqb b x00) eqn:Eb; [|reflexivity].
  apply Byte.byte_dec_bl in Eb. subst. simpl in E. lia.
Qed.

Lemma dec_digits_no_nul fuel n acc :
  no_nul acc = true -> no_nul (dec_digits fuel n acc) = true.
Proof.
  revert n acc. induction fuel as [|f IH]; intros n acc Hacc; simpl; [done|].
  assert (Hc : no_nul (digit_byte (n mod 10) :: acc) = true)
    by (simpl; rewrite digit_byte_not_nul; exact Hacc).
  destruct (n / 10 =? 0); [exact Hc | by apply IH].
Qed.

Lemma version_bytes_no_nul v : no_nul (version_bytes v) = true.
Proof.
  unfold version_bytes, no_nul, dec. rewrite !forallb_app.
  rewrite !(dec_digits_no_nul _ _ [] eq_refl). reflexivity.
Qed.

Lemma version_bytes_nonempty v : version_bytes v <> [].
Proof. unfold version_bytes. intros H. apply app_eq_nil in H as [_ H]. discriminate. Qed.

Lemma init_logging_twice {Engine} (st : @state Engine) :
  corint_init_logging (corint_init_logging st) = corint_init_logging st.
Proof. destruct st as [f n [l|]]; reflexivity. Qed.

(** Run the evaluator pipeline through every undetermined case: each
    branch left open ends in the null result. *)
Ltac pipeline_none := simpl; repeat (case_match; simpl; try done; try congruence).

Section DecideLemmas.
Context {Engine Json : Type}.
Variable parse_json : list byte -> option Json.
Variable render_json : Json -> option (list byte).
Variable schema_ok : Engine -> Json -> bool.
Variable evaluate : Engine -> Json -> outcome Json.

Local Abbreviation response := (decide_response parse_json render_json schema_ok evaluate).

Lemma decide_response_fail (st : @state Engine) h r :
  decide_failure parse_json render_json schema_ok evaluate st h r -> response st h r = None.
Proof.
  unfold decide_response.
  destruct 1 as [Hh|Hh|Hr|Hr Hn|req Hr Hu|req Hr Hp|e src req j He Hr Hp Hs
                |e src req j He Hr Hp Hv|e src req j He Hr Hp Hv|e src req j resp He Hr Hp Hv Hj].
  - subst. reflexivity.
  - destruct (h =? 0); [done|].
    destruct (native st !! h) as [[|e src|]|] eqn:He; try done. by destruct (Hh e src).
  - subst. unfold cstr_read. simpl. pipeline_none.
  - rewrite cstr_read_invalid by done. pipeline_none.
  - rewrite Hr. pipeline_none.
  - rewrite Hr. pipeline_none. by rewrite Hp.
  - rewrite He, Hr. pipeline_none. rewrite Hp. simpl. by rewrite Hs.
  - rewrite He, Hr. pipeline_none. rewrite Hp. pipeline_none. by rewrite Hv.
  - rewrite He, Hr. pipeline_none. rewrite Hp. pipeline_none. by rewrite Hv.
  - rewrite He, Hr. pipeline_none. rewrite Hp. pipeline_none. rewrite Hv. simpl. by rewrite Hj.
Qed.

(** The response depends on the caller's memory only through the request. *)
Lemma decide_response_frame (st st' : @state Engine) h r :
  native st' = native st -> cstr_read st' r = cstr_read st r -> response st' h r = response st h r.
Proof. intros Hn Hr. unfold decide_response. by rewrite Hn, Hr. Qed.

Lemma decide_cases (st : @state Engine) h r :
  corint_engine_decide parse_json render_json schema_ok evaluate st h r = (0, st) \/
  exists bs, response st h r = Some bs /\
    corint_engine_decide parse_json render_json schema_ok evaluate st h r = alloc st (DStr (bs ++ [x00])).
Proof.
  unfold corint_engine_decide. destruct (response st h r) as [bs|]; [right|left]; eauto.
Qed.

End DecideLemmas.

(** ** Claims *)

(** C1: the result of either factory is the null sentinel or a non-null
    handle of a registered engine; each failure (null, unmapped or
    unterminated pointer, a string that is not UTF-8, a loader error such as
    path not found, path not readable, invalid repository, unreachable host,
    refused authentication, schema mismatch, pool initialisation failure or
    resource exhaustion) gives the null sentinel, for both factories. *)
Theorem factories_result_shape {Engine} (load_fs load_db : list byte -> Engine + load_err)
    (st : @state Engine) (p : N) :
  (let '(h, st') := corint_engine_new load_fs st p in
     h = 0 \/ (h <> 0 /\ exists e src, native st' !! h = Some (DEngine e src))) /\
  (let '(h, st') := corint_engine_new_from_database load_db st p in
     h = 0 \/ (h <> 0 /\ exists e src, native st' !! h = Some (DEngine e src))) /\
  (new_failure load_fs st p -> fst (corint_engine_new load_fs st p) = 0) /\
  (new_failure load_db st p -> fst (corint_engine_new_from_database load_db st p) = 0).
Proof.
  unfold corint_engine_new, corint_engine_new_from_database.
  split; [|split; [|split]].
  - pose proof (engine_new_with_shape load_fs st p) as Hs.
    destruct (engine_new_with load_fs st p) as [h st'].
    destruct Hs as [[-> _]|(Hh & e & src & _ & Hn & _)]; [by left|].
    right. split; [done|]. exists e, src. rewrite Hn. apply lookup_insert_eq.
  - pose proof (engine_new_with_shape load_db st p) as Hs.
    destruct (engine_new_with load_db st p) as [h st'].
    destruct Hs as [[-> _]|(Hh & e & src & _ & Hn & _)]; [by left|].
    right. split; [done|]. exists e, src. rewrite Hn. apply lookup_insert_eq.
  - intros Hf. by rewrite engine_new_with_fail.
  - intros Hf. by rewrite engine_new_with_fail.
Qed.

Lemma factories_result_shape_witness :
  new_failure ex_load_missing ex_state0 1 /\
  fst (corint_engine_new ex_load_missing ex_state0 1) = 0.
Proof.
  assert (Hf : new_failure ex_load_missing ex_state0 1)
    by (apply (LoadFailed _ _ _ ["/"; "r"; "e"; "p"; "o"]%byte PathNotFound); reflexivity).
  split; [exact Hf|].
  exact (proj1 (proj2 (proj2 (factories_result_shape ex_load_missing ex_load_missing ex_state0 1))) Hf).
Defined.

(** C2: every failure of the evaluator (null or unknown handle, null or
    invalid request pointer, request not UTF-8, not JSON, rejected by the
    schema, evaluation error, panic in the engine, exhaustion while the
    response is built) returns the null sentinel and leaves the state as it
    was; a panic is caught at the boundary and never crosses it. *)
Theorem decide_null_on_failure {Engine Json}
    (parse_json : list byte -> option Json) (render_json : Json -> option (list byte))
    (schema_ok : Engine -> Json -> bool) (evaluate : Engine -> Json -> outcome Json)
    (st : @state Engine) (h r : N) :
  decide_failure parse_json render_json schema_ok evaluate st h r ->
  corint_engine_decide parse_json render_json schema_ok evaluate st h r = (0, st).
Proof.
  intros Hf. unfold corint_engine_decide. by rewrite decide_response_fail.
Qed.

Lemma decide_null_on_failure_witness :
  decide_failure ex_parse ex_render ex_schema ex_eval_panic (snd ex_engine) (fst ex_engine) 2 /\
  corint_engine_decide ex_parse ex_render ex_schema ex_eval_panic (snd ex_engine) (fst ex_engine) 2
    = (0, snd ex_engine).
Proof.
  assert (Hf : decide_failure ex_parse ex_render ex_schema ex_eval_panic
                 (snd ex_engine) (fst ex_engine) 2)
    by (apply (EvaluationPanicked _ _ _ _ _ _ _ tt ["/"; "r"; "e"; "p"; "o"]%byte
                 ["{"; "}"]%byte tt); vm_compute; reflexivity).
  split; [exact Hf|].
  exact (decide_null_on_failure ex_parse ex_render ex_schema ex_eval_panic _ _ _ Hf).
Defined.

(** C4: releasing the null engine handle and releasing the null string are
    no-ops: the state is unchanged and the string release is defined. *)
Theorem release_null_noop {Engine} (st : @state Engine) :
  corint_engine_free st 0 = st /\ corint_string_free st 0 = Some st.
Proof. split; reflexivity. Qed.

(** C5: calling corint_init_logging n >= 1 times leaves the same state as
    calling it once. *)
Theorem init_logging_idempotent {Engine} (st : @state Engine) (n : nat) :
  (1 <= n)%nat -> Nat.iter n corint_init_logging st = corint_init_logging st.
Proof.
  induction n as [|n IH]; intros Hn; [lia|].
  destruct n as [|n]; [reflexivity|].
  change (corint_init_logging (Nat.iter (S n) corint_init_logging st) = corint_init_logging st).
  rewrite IH by lia. apply init_logging_twice.
Qed.

Lemma init_logging_idempotent_witness :
  (1 <= 3)%nat /\ Nat.iter 3 corint_init_logging ex_state0 = corint_init_logging ex_state0.
Proof. split; [lia | apply (init_logging_idempotent ex_state0 3); lia]. Defined.





(** C6: the version accessor returns a non-null pointer to a non-empty
    zero-terminated string; after it is released, a second call returns a
    byte-equal string. *)
Theorem version_stable {Engine} (v : semver) (st : @state Engine) :
  let '(p1, st1) := corint_version v st in
  p1 <> 0 /\ native_cstr st1 p1 = Some (version_bytes v) /\ version_bytes v <> [] /\
  exists st1', corint_string_free st1 p1 = Some st1' /\
  let '(p2, st2) := corint_version v st1' in
  p2 <> 0 /\ native_cstr st2 p2 = native_cstr st1 p1.
Proof.
  assert (Hc : forall st0 : @state Engine, let '(p, st') := corint_version v st0 in
            p <> 0 /\ native_cstr st' p = Some (version_bytes v) /\
            corint_string_free st' p = Some st0).
  { intros st0. unfold corint_version.
    pose proof (alloc_str st0 (version_bytes v ++ [x00])) as Ha.
    destruct (alloc st0 (DStr (version_bytes v ++ [x00]))) as [p st'].
    destruct Ha as (Hnz & _ & Hl & Hrel).
    split; [done|split].
    - unfold native_cstr. rewrite Hl. apply take_cstr_terminated, version_bytes_no_nul.
    - unfold corint_string_free. apply N.eqb_neq in Hnz. by rewrite Hnz, Hl, Hrel. }
  pose proof (Hc st) as H1. destruct (corint_version v st) as [p1 st1].
  destruct H1 as (Hnz1 & Hs1 & Hf1).
  split; [done|split; [done|split; [apply version_bytes_nonempty|]]].
  exists st. split; [done|].
  pose proof (Hc st) as H2. destruct (corint_version v st) as [p2 st2].
  destruct H2 as (Hnz2 & Hs2 & _). split; [done|]. by rewrite Hs1, Hs2.
Qed.

(** C7: the filesystem factory is atomic on failure: a null result leaves
    the whole state exactly as it was (the scratch copy of the path is
    released).  On success the only allocation left is the new engine.  In
    all cases the path is not retained: after the call the caller may
    release its path buffer and every later evaluation on the returned
    handle (with a request held elsewhere) gives the same response. *)
Theorem engine_new_atomic {Engine} (load_fs : list byte -> Engine + load_err)
    (st : @state Engine) (p : N) :
  let '(h, st') := corint_engine_new load_fs st p in
  (h = 0 -> st' = st) /\
  (h <> 0 -> exists e src, native st !! h = None /\ native st' = <[h := DEngine e src]> (native st)) /\
  (forall Json (parse_json : list byte -> option Json) (render_json : Json -> option (list byte))
          (schema_ok : Engine -> Json -> bool) (evaluate : Engine -> Json -> outcome Json) r,
     r <> p ->
     decide_response parse_json render_json schema_ok evaluate
       (set_foreign (delete p (foreign st')) st') h r =
     decide_response parse_json render_json schema_ok evaluate st' h r).
Proof.
  unfold corint_engine_new.
  pose proof (engine_new_with_shape load_fs st p) as Hs.
  destruct (engine_new_with load_fs st p) as [h st'].
  split; [|split].
  - intros ->. destruct Hs as [[_ ?]|[? _]]; done.
  - intros Hh. destruct Hs as [[? _]|(_ & e & src & Hn & Hn' & _)]; [done|]. eauto.
  - intros Json parse_json render_json schema_ok evaluate r Hr.
    apply decide_response_frame; [reflexivity|].
    unfold cstr_read. simpl. by rewrite lookup_delete_ne.
Qed.

Lemma engine_new_atomic_witness : snd (corint_engine_new ex_load_missing ex_state0 1) = ex_state0.
Proof.
  pose proof (engine_new_atomic ex_load_missing ex_state0 1) as H.
  destruct (corint_engine_new ex_load_missing ex_state0 1) as [h st'] eqn:E.
  destruct H as [H _]. apply H.
  vm_compute in E. injection E as <- _. reflexivity.
Defined.

(** C8: a non-null string returned by the evaluator or by the version
    accessor is a fresh block of the native allocator; one call to
    corint_string_free returns it to that allocator and restores the state
    of before the call (nothing leaks), and a second release of the same
    pointer is no longer defined. *)
Theorem returned_strings_released_once {Engine Json}
    (parse_json : list byte -> option Json) (render_json : Json -> option (list byte))
    (schema_ok : Engine -> Json -> bool) (evaluate : Engine -> Json -> outcome Json)
    (v : semver) (st : @state Engine) (h r : N) :
  (let '(p, st1) := corint_engine_decide parse_json render_json schema_ok evaluate st h r in
   p <> 0 ->
   native st !! p = None /\ (exists buf, native st1 !! p = Some (DStr buf)) /\
   corint_string_free st1 p = Some st /\ corint_string_free st p = None) /\
  (let '(p, st1) := corint_version v st in
   p <> 0 /\ native st !! p = None /\ (exists buf, native st1 !! p = Some (DStr buf)) /\
   corint_string_free st1 p = Some st /\ corint_string_free st p = None).
Proof.
  assert (Hgen : forall buf, let '(p, st1) := alloc st (DStr buf) in
            p <> 0 /\ native st !! p = None /\ (exists buf, native st1 !! p = Some (DStr buf)) /\
            corint_string_free st1 p = Some st /\ corint_string_free st p = None).
  { intros buf. pose proof (alloc_str st buf) as Ha.
    destruct (alloc st (DStr buf)) as [p st1]. destruct Ha as (Hnz & Hn & Hl & Hrel).
    unfold corint_string_free. apply N.eqb_neq in Hnz as Hnz'. rewrite Hnz', Hl, Hn, Hrel.
    eauto 6. }
  split.
  - destruct (decide_cases parse_json render_json schema_ok evaluate st h r) as [->|(bs & _ & ->)].
    + intros H. by destruct H.
    + pose proof (Hgen (bs ++ [x00])) as Hg.
      destruct (alloc st (DStr (bs ++ [x00]))) as [p st1]. intros _. apply Hg.
  - apply Hgen.
Qed.

Lemma returned_strings_released_once_witness :
  let '(p, st1) := corint_engine_decide ex_parse ex_render ex_schema ex_eval_ok
                     (snd ex_engine) (fst ex_engine) 2 in
  corint_string_free st1 p = Some (snd ex_engine).
Proof.
  pose proof (returned_strings_released_once ex_parse ex_render ex_schema ex_eval_ok
                {| major := 0; minor := 1; patch := 0 |} (snd ex_engine) (fst ex_engine) 2) as [H _].
  destruct (corint_engine_decide ex_parse ex_render ex_schema ex_eval_ok
              (snd ex_engine) (fst ex_engine) 2) as [p st1] eqn:E.
  apply H. vm_compute in E. injection E as <- _. discriminate.
Defined.

(** ** Further properties of the boundary *)

Lemma engine_new_with_success {Engine} (load : list byte -> Engine + load_err) st p :
  let '(h, st') := engine_new_with load st p in
  h <> 0 -> exists e src, native st !! h = None /\
    st' = set_native (<[h := DEngine e src]> (native st)) st.
Proof.
  unfold engine_new_with.
  destruct (cstr_read st p) as [src|]; [|done].
  destruct (utf8_valid src); [|done].
  pose proof (release_alloc st (DScratch src)) as Hra.
  destruct (alloc st (DScratch src)) as [tmp st1]. simpl in Hra. rewrite Hra.
  destruct (load src) as [e|err]; [|done].
  intros _. destruct (fresh_addr_spec st) as (_ & Hn & _). exists e, src. done.
Qed.

Lemma engine_free_new {Engine} (load : list byte -> Engine + load_err) (st : @state Engine) p :
  let '(h, st') := engine_new_with load st p in h <> 0 -> corint_engine_free st' h = st.
Proof.
  pose proof (engine_new_with_success load st p) as Hs.
  destruct (engine_new_with load st p) as [h st']. intros Hh.
  destruct (Hs Hh) as (e & src & Hn & ->).
  unfold corint_engine_free. apply N.eqb_neq in Hh. rewrite Hh. simpl.
  rewrite lookup_insert_eq. destruct st as [f n l]. unfold release, set_native. simpl in *.
  by rewrite delete_insert_id.
Qed.

(** An engine built by either factory and then released leaves the state
    exactly as it was before the factory call: nothing leaks. *)
Theorem engine_lifecycle_no_leak {Engine} (load_fs load_db : list byte -> Engine + load_err)
    (st : @state Engine) (p : N) :
  (let '(h, st') := corint_engine_new load_fs st p in
   h <> 0 -> corint_engine_free st' h = st) /\
  (let '(h, st') := corint_engine_new_from_database load_db st p in
   h <> 0 -> corint_engine_free st' h = st).
Proof. split; apply engine_free_new. Qed.

Lemma engine_lifecycle_no_leak_witness :
  corint_engine_free (snd ex_engine) (fst ex_engine) = ex_state0.
Proof.
  pose proof (engine_lifecycle_no_leak ex_load ex_load ex_state0 1) as [H _].
  unfold ex_engine. destruct (corint_engine_new ex_load ex_state0 1) as [h st'] eqn:E.
  apply H. vm_compute in E. injection E as <- _. discriminate.
Defined.

(** A response string is owned by the caller, not by the engine: releasing
    the engine after an evaluation leaves the returned string readable and
    unchanged. *)
Theorem response_survives_engine_free {Engine Json}
    (parse_json : list byte -> option Json) (render_json : Json -> option (list byte))
    (schema_ok : Engine -> Json -> bool) (evaluate : Engine -> Json -> outcome Json)
    (st : @state Engine) (h r : N) :
  let '(p, st1) := corint_engine_decide parse_json render_json schema_ok evaluate st h r in
  p <> 0 -> native_cstr (corint_engine_free st1 h) p = native_cstr st1 p.
Proof.
  destruct (decide_cases parse_json render_json schema_ok evaluate st h r) as [->|(bs & _ & ->)];
    [done|].
  pose proof (alloc_str st (bs ++ [x00])) as Ha.
  destruct (alloc st (DStr (bs ++ [x00]))) as [p st1]. destruct Ha as (_ & _ & Hl & _).
  intros _. unfold corint_engine_free.
  destruct (h =? 0); [done|].
  destruct (native st1 !! h) as [[|e src|]|] eqn:Eh; try done.
  unfold native_cstr, release. simpl. rewrite lookup_delete_ne; [done|].
  intros ->. congruence.
Qed.

Lemma response_survives_engine_free_witness :
  let '(p, st1) := corint_engine_decide ex_parse ex_render ex_schema ex_eval_ok
                     (snd ex_engine) (fst ex_engine) 2 in
  native_cstr (corint_engine_free st1 (fst ex_engine)) p = native_cstr st1 p.
Proof.
  pose proof (response_survives_engine_free ex_parse ex_render ex_schema ex_eval_ok
                (snd ex_engine) (fst ex_engine) 2) as H.
  destruct (corint_engine_decide ex_parse ex_render ex_schema ex_eval_ok
              (snd ex_engine) (fst ex_engine) 2) as [p st1] eqn:E.
  apply H. vm_compute in E. injection E as <- _. discriminate.
Defined.
